(** * RockPaperScissors: the game core of [src/lib.rs]

    A shallow embedding of [Game], [Player], [RPS], [Outcome], [MoveError]
    and [Game::make_move] / [Game::new] / [Game::force_win] of the crate,
    with the proofs of the properties listed for it.

    Modelling choices.
    - The board [Field { rows: [[Option<GeneralUnit>; WIDTH]; HEIGHT] }] is a
      list of [HEIGHT] rows of [WIDTH] cells, read as [rows[y][x]].  Rust array
      indexing panics out of range; reads and writes below do the same.
    - A Rust panic is the [Panicked] outcome of the [res] monad.
    - [turns: u32] is an [N]; [self.turns += 1] follows Rust's checked
      arithmetic: it panics when the counter is already [u32::MAX].
    - The traits [MoveCondition] and [WinCondition] are parameters of the
      section (any implementation), as is [Move::apply] of the module
      [move_conditions], which is not part of [src/].
    - The modules [unit], [field], [move_conditions], [win_conditions] are not
      in [src/]; what the proofs need of them is modelled from the spec and
      marked so. *)

From Stdlib Require Import NArith Lia.
From stdpp Require Import base list decidable.

(* ------------------------------------------------------------------ *)
(** ** Configuration constants (the non-test build) *)

Definition WIDTH : nat := 8.
Definition HEIGHT : nat := 8.
Definition ROWS : nat := 2.

(** [u32::MAX] *)
Definition U32_MAX : N := 4294967295.

(* ------------------------------------------------------------------ *)
(** ** A panic monad *)

Inductive res (A : Type) : Type :=
| Done (a : A)
| Panicked.
Arguments Done {A} a.
Arguments Panicked {A}.

#[global] Instance res_ret : MRet res := fun A a => Done a.
#[global] Instance res_bind : MBind res :=
  fun A B (k : A -> res B) (m : res A) =>
    match m with Done a => k a | Panicked => Panicked end.

(** [Option::unwrap] *)
Definition unwrap {A} (o : option A) : res A :=
  match o with Some a => Done a | None => Panicked end.

(* ------------------------------------------------------------------ *)
(** ** Enums *)

Inductive Player := Red | Blue.
Inductive RPS := Rock | Paper | Scissors.
Inductive Outcome := Win | Lose | Draw.

Inductive MoveError :=
| GameAlreadyFinished
| DeclinedByMoveCondition
| PositionOutOfBounds
| WrongOwner
| NoUnitInPosition
| SameOwner
| UnexpextedError.

#[global] Instance Player_eq_dec : EqDecision Player.
Proof. solve_decision. Defined.
#[global] Instance RPS_eq_dec : EqDecision RPS.
Proof. solve_decision. Defined.
#[global] Instance Outcome_eq_dec : EqDecision Outcome.
Proof. solve_decision. Defined.

(** [Player::next] *)
Definition next (p : Player) : Player :=
  match p with Red => Blue | Blue => Red end.

(** [RPS::attack] *)
Definition attack (self opponent : RPS) : Outcome :=
  match self, opponent with
  | Paper, Rock | Rock, Scissors | Scissors, Paper => Win
  | Rock, Paper | Scissors, Rock | Paper, Scissors => Lose
  | _, _ => Draw
  end.

(* ------------------------------------------------------------------ *)
(** ** Units *)

(** Modelled from the spec: [GeneralUnit] of the module [unit] (not in
    [src/]): an owner, an RPS kind and a visibility flag (spec §3). *)
Record GeneralUnit := mkUnit {
  owner : Player;
  rps : RPS;
  visible : bool
}.

#[global] Instance GeneralUnit_eq_dec : EqDecision GeneralUnit.
Proof. solve_decision. Defined.

(** Modelled from the spec: [GeneralUnit::new(rps, owner)]; a fresh unit is
    not visible (spec §3: "visible starts false"). *)
Definition GeneralUnit_new (k : RPS) (p : Player) : GeneralUnit :=
  mkUnit p k false.

(** [Player::unit] *)
Definition unit (p : Player) (k : RPS) : GeneralUnit := GeneralUnit_new k p.

(** Modelled from the spec: [Unit::attack] of the module [unit], the
    combat of two units, which resolves through [RPS::attack] of their
    kinds (spec §4.2; [None] would be the unclassifiable case). *)
Definition unit_attack (u d : GeneralUnit) : option Outcome :=
  Some (attack (rps u) (rps d)).

(** [unit.visible = true] *)
Definition set_visible (u : GeneralUnit) : GeneralUnit :=
  mkUnit (owner u) (rps u) true.

(* ------------------------------------------------------------------ *)
(** ** The board *)

Definition Field := list (list (option GeneralUnit)).

(** [field.rows[y][x]] as an rvalue *)
Definition get_cell (f : Field) (x y : nat) : res (option GeneralUnit) :=
  match f !! y with
  | Some row => match row !! x with Some c => Done c | None => Panicked end
  | None => Panicked
  end.

(** [field.rows[y][x] = v] *)
Definition set_cell (f : Field) (x y : nat) (v : option GeneralUnit) : res Field :=
  match f !! y with
  | Some row =>
      if decide (x < length row) then Done (<[y := <[x := v]> row]> f)
      else Panicked
  | None => Panicked
  end.

(** [field.rows[y][x].as_mut().unwrap().visible = true] *)
Definition reveal (f : Field) (x y : nat) : res Field :=
  c ← get_cell f x y;
  u ← unwrap c;
  set_cell f x y (Some (set_visible u)).

(** Well-formed board: the shape fixed by the array type. *)
Definition wf_field (f : Field) : bool :=
  bool_decide (length f = HEIGHT) && forallb (fun row => bool_decide (length row = WIDTH)) f.

(* ------------------------------------------------------------------ *)
(** ** Moves *)

(** Modelled from the spec: the direction of a move descriptor of the
    module [move_conditions] (spec §4.3, §8 "moves forward"). *)
Inductive Direction := Forward | Backward.

(** Modelled from the spec: [Move] of the module [move_conditions]: an
    origin cell [from = (x, y)] and a direction. *)
Record Move := mkMove {
  from : nat * nat;
  direction : Direction
}.

(* ------------------------------------------------------------------ *)
(** ** The game *)

(** [Game] without its [rules] field, which is a section parameter. *)
Record Game := mkGame {
  turns : N;
  current_turn : Player;
  winner : option Player;
  field : Field
}.

Definition MoveResult := (option Outcome + MoveError)%type.

(** [self.turns += 1] on a [u32], with Rust's overflow check. *)
Definition incr_turns (t : N) : res N :=
  if decide (t < U32_MAX)%N then Done (t + 1)%N else Panicked.

(** The board mutation of [Game::make_move] (lines 116-135), given the
    outcome of the combat ([None]: plain relocation). *)
Definition mutate (f : Field) (from_x from_y to_x to_y : nat)
    (attack_outcome : option Outcome) : res Field :=
  match attack_outcome with
  | Some Win =>
      c ← get_cell f from_x from_y;
      f1 ← set_cell f to_x to_y c;
      f2 ← set_cell f1 from_x from_y None;
      reveal f2 to_x to_y
  | Some Lose =>
      f1 ← set_cell f from_x from_y None;
      reveal f1 to_x to_y
  | Some Draw =>
      f1 ← reveal f from_x from_y;
      reveal f1 to_x to_y
  | None =>
      c ← get_cell f from_x from_y;
      f1 ← set_cell f to_x to_y c;
      set_cell f1 from_x from_y None
  end.

(** [Game::new]: [draws k] is the kind returned by the [k]-th call of
    [RPS::random]; row [i] takes draw [2 i] (Red), row [HEIGHT - i - 1]
    takes draw [2 i + 1] (Blue), and each draw is copied across the row by
    the array repeat expression [[Some(..); WIDTH]]. *)
Definition new_rows (draws : nat -> RPS) : Field :=
  fold_left
    (fun rows i =>
       let rows := <[i := replicate WIDTH (Some (unit Red (draws (2 * i))))]> rows in
       <[HEIGHT - i - 1 := replicate WIDTH (Some (unit Blue (draws (2 * i + 1))))]> rows)
    (seq 0 ROWS)
    (replicate HEIGHT (replicate WIDTH None)).

Definition new (draws : nat -> RPS) : Game :=
  mkGame 1 Red None (new_rows draws).

(** [Game::force_win] *)
Definition force_win (self : Game) (player : Player) : Game :=
  match winner self with
  | Some _ => self
  | None => mkGame (turns self) (current_turn self) (Some player) (field self)
  end.

Section Rules.

(** [MoveCondition::is_valid] of the rules' move condition. *)
Variable is_valid : Move -> bool.
(** [Move::apply]: the destination of a move for the moving player. *)
Variable apply : Move -> Player -> nat * nat.
(** [WinCondition::winner] of the rules' win condition. *)
Variable win_condition : Field -> option Player.

(** Lines 116-141 of [Game::make_move]: mutation, winner, turn counter. *)
Definition finish (self : Game) (from_x from_y to_x to_y : nat)
    (attack_outcome : option Outcome) : res (Game * MoveResult) :=
  f ← mutate (field self) from_x from_y to_x to_y attack_outcome;
  let w := win_condition f in
  t ← incr_turns (turns self);
  Done (mkGame t (next (current_turn self)) w f, inl attack_outcome).

(** [Game::make_move]; an error leaves [self] as it is. *)
Definition make_move (self : Game) (movement : Move) : res (Game * MoveResult) :=
  match winner self with
  | Some _ => Done (self, inr GameAlreadyFinished)
  | None =>
    if negb (is_valid movement) then Done (self, inr DeclinedByMoveCondition) else
    let '(from_x, from_y) := from movement in
    if bool_decide (WIDTH <= from_x) || bool_decide (HEIGHT <= from_y)
    then Done (self, inr PositionOutOfBounds) else
    c ← get_cell (field self) from_x from_y;
    match c with
    | None => Done (self, inr NoUnitInPosition)
    | Some u =>
      if bool_decide (owner u ≠ current_turn self) then Done (self, inr WrongOwner) else
      let '(to_x, to_y) := apply movement (owner u) in
      if bool_decide (WIDTH <= to_x) || bool_decide (HEIGHT <= to_y)
      then Done (self, inr PositionOutOfBounds) else
      d ← get_cell (field self) to_x to_y;
      match d with
      | Some defender =>
          if bool_decide (owner defender = current_turn self)
          then Done (self, inr SameOwner) else
          match unit_attack u defender with
          | None => Done (self, inr UnexpextedError)
          | Some r => finish self from_x from_y to_x to_y (Some r)
          end
      | None => finish self from_x from_y to_x to_y None
      end
    end
  end.

(** States reachable from [Game::new] through accepted moves and
    [force_win]. *)
Inductive reachable : Game -> Prop :=
| reach_new draws : reachable (new draws)
| reach_move g m g' r :
    reachable g -> make_move g m = Done (g', inl r) -> reachable g'
| reach_force g p : reachable g -> reachable (force_win g p).

(** Where the unit found in cell [(x, y)] after [make_move self movement]
    with result [r] stood before the move: a unit that moved (plain
    relocation or a won combat) came from the origin, every other unit stayed
    in its cell. *)
Definition source_cell (self : Game) (movement : Move) (r : MoveResult) (x y : nat)
    : nat * nat :=
  match r with
  | inl None | inl (Some Win) =>
      if decide ((x, y) = apply movement (current_turn self)) then from movement else (x, y)
  | _ => (x, y)
  end.

End Rules.

(* ------------------------------------------------------------------ *)
(** ** Concrete rules, for the examples *)

(** Modelled from the spec: [OnlyForwardMove::is_valid] (spec §4.3,
    "forward-only"). *)
Definition only_forward (m : Move) : bool :=
  match direction m with Forward => true | Backward => false end.

(** Modelled from the spec: [Move::apply] (spec §4.3): Red moves toward
    increasing row index, Blue toward decreasing; a step off the grid gives
    a coordinate outside it (here [HEIGHT]), which [make_move] rejects. *)
Definition move_apply (m : Move) (p : Player) : nat * nat :=
  let '(x, y) := from m in
  match direction m, p with
  | Forward, Red | Backward, Blue => (x, S y)
  | Forward, Blue | Backward, Red => (x, if decide (y = 0) then HEIGHT else pred y)
  end.

(** Modelled from the spec: [EliminateCondition::winner] (spec §4.4): a
    player with no unit left on the board loses. *)
Definition units_of (p : Player) (f : Field) : nat :=
  length (List.filter
            (fun c => match c with Some u => bool_decide (owner u = p) | None => false end)
            (concat f)).

Definition eliminate (f : Field) : option Player :=
  if decide (units_of Red f = 0) then Some Blue
  else if decide (units_of Blue f = 0) then Some Red
  else None.

Definition rps_move := make_move only_forward move_apply eliminate.

(* ------------------------------------------------------------------ *)
(** ** Random units *)

(** The number of [usize] values on a 64-bit target. *)
Definition USIZE_RANGE : N := 2 ^ 64.

(** [RPS::random], given the value [r] of [rand::random::<usize>()]. *)
Definition random_of (r : N) : res RPS :=
  let k := (r mod 3)%N in
  if N.eqb k 0 then Done Rock
  else if N.eqb k 1 then Done Paper
  else if N.eqb k 2 then Done Scissors
  else Panicked.

(** [Player::random_unit], given the value [r] drawn by [RPS::random]. *)
Definition random_unit (p : Player) (r : N) : res GeneralUnit :=
  k ← random_of r; Done (unit p k).

(** Whether the draw [r] gives the kind [k]. *)
Definition draw_is (k : RPS) (r : N) : bool :=
  match random_of r with Done k' => bool_decide (k' = k) | Panicked => false end.

(** How many of the values [0 .. n - 1] give the kind [k]. *)
Fixpoint count_draws (k : RPS) (n : nat) : nat :=
  match n with
  | O => 0
  | S n' => count_draws k n' + (if draw_is k (N.of_nat n') then 1 else 0)
  end.

(** A cell holding a unit of [p], as a 0/1 count. *)
Definition owned (p : Player) (c : option GeneralUnit) : nat :=
  match c with Some u => if bool_decide (owner u = p) then 1 else 0 | None => 0 end.

(* ------------------------------------------------------------------ *)
(** ** Helpers for the statements and a concrete game *)

(** The two cells a move changes: (destination, origin) after the move,
    for the mover [u] and the former occupant [d] of the destination. *)
Definition moved_cells (o : option Outcome) (u : GeneralUnit) (d : option GeneralUnit)
    : option GeneralUnit * option GeneralUnit :=
  match o with
  | None => (Some u, None)
  | Some Win => (Some (set_visible u), None)
  | Some Lose => (set_visible <$> d, None)
  | Some Draw => (set_visible <$> d, Some (set_visible u))
  end.

(** The value [Game::new] copies across row [y]. *)
Definition seed_cell (draws : nat -> RPS) (y : nat) : option GeneralUnit :=
  if decide (y < ROWS) then Some (unit Red (draws (2 * y)))
  else if decide (HEIGHT - ROWS <= y) then Some (unit Blue (draws (2 * (HEIGHT - 1 - y) + 1)))
  else None.

Definition all_rock : nat -> RPS := fun _ => Rock.

Definition reachable_rps := reachable only_forward move_apply eliminate.

(** Play accepted moves in turn; stop at the first one not accepted. *)
Fixpoint play (g : Game) (ms : list Move) : Game :=
  match ms with
  | [] => g
  | m :: ms' =>
      match rps_move g m with
      | Done (g', inl _) => play g' ms'
      | _ => g
      end
  end.

(** Red and Blue walk their column-0 front units until they face each other,
    then Red attacks and Blue attacks back: two Draws. *)
Definition red_attack : Move := mkMove (0, 3) Forward.
Definition blue_attack : Move := mkMove (0, 4) Forward.
Definition opening : list Move :=
  [mkMove (0, 1) Forward; mkMove (0, 6) Forward; mkMove (0, 2) Forward;
   mkMove (0, 5) Forward; red_attack; blue_attack].

Definition loop_field : Field := field (play (new all_rock) opening).

Definition loop_state (t : N) : Game := mkGame t Red None loop_field.

Definition first_move : Move := mkMove (0, 1) Forward.

(* ------------------------------------------------------------------ *)
(** ** Small checks on concrete inputs *)

Example attack_rock_scissors : attack Rock Scissors = Win.
Proof. reflexivity. Qed.

Example first_move_relocates :
  match rps_move (new (fun _ => Paper)) (mkMove (0, 1) Forward) with
  | Done (g, inl None) => turns g = 2%N /\ current_turn g = Blue
  | _ => False
  end.
Proof. vm_compute. auto. Qed.

Example empty_origin_rejected :
  rps_move (new (fun _ => Paper)) (mkMove (0, 3) Forward)
  = Done (new (fun _ => Paper), inr NoUnitInPosition).
Proof. reflexivity. Qed.

(* ------------------------------------------------------------------ *)
(** ** Lemmas on the board *)

Lemma get_cell_Done f x y c :
  get_cell f x y = Done c ->
  exists row, f !! y = Some row /\ row !! x = Some c.
Proof.
  unfold get_cell. destruct (f !! y) as [row|]; [|discriminate].
  destruct (row !! x) eqn:?; [|discriminate]. intros [= ->]. eauto.
Qed.

Lemma get_set_cell f x y v f' x' y' :
  set_cell f x y v = Done f' ->
  get_cell f' x' y' =
    if decide ((x', y') = (x, y)) then Done v else get_cell f x' y'.
Proof.
  unfold set_cell. destruct (f !! y) as [row|] eqn:Hy; [|discriminate].
  case_decide as Hx; [|discriminate]. intros [= <-].
  pose proof (lookup_lt_Some _ _ _ Hy) as Hyl.
  unfold get_cell, Field in *. destruct (decide (y' = y)) as [->|Hne].
  - rewrite list_lookup_insert_eq by lia. rewrite Hy.
    destruct (decide (x' = x)) as [->|Hxne].
    + rewrite list_lookup_insert_eq by lia. rewrite decide_True; done.
    + rewrite list_lookup_insert_ne by congruence.
      rewrite decide_False; [done|congruence].
  - rewrite list_lookup_insert_ne by congruence.
    rewrite decide_False; [done|congruence].
Qed.

Lemma set_cell_ok f x y c v :
  get_cell f x y = Done c -> exists f', set_cell f x y v = Done f'.
Proof.
  intros (row & Hy & Hx)%get_cell_Done. unfold set_cell. rewrite Hy.
  rewrite decide_True; [eauto|]. eapply lookup_lt_Some; eauto.
Qed.

Lemma set_cell_length f x y v f' :
  set_cell f x y v = Done f' ->
  length f' = length f /\
  (forall y' row', f' !! y' = Some row' ->
     exists row, f !! y' = Some row /\ length row' = length row).
Proof.
  unfold set_cell. destruct (f !! y) as [row|] eqn:Hy; [|discriminate].
  case_decide; [|discriminate]. intros [= <-]. unfold Field in *.
  split; [apply length_insert|].
  intros y' row' H'. destruct (decide (y' = y)) as [->|Hne].
  - rewrite list_lookup_insert_eq in H' by (eapply lookup_lt_Some; eauto).
    injection H' as <-. exists row. split; [done|apply length_insert].
  - rewrite list_lookup_insert_ne in H' by congruence. eauto.
Qed.

(** The turn counter step, unfolded. *)
Lemma incr_turns_Done t t' : incr_turns t = Done t' -> (t < U32_MAX)%N /\ t' = (t + 1)%N.
Proof. unfold incr_turns. case_decide; [intros [= <-]; auto|discriminate]. Qed.

Lemma incr_turns_lt t : (t < U32_MAX)%N -> incr_turns t = Done (t + 1)%N.
Proof. intros. unfold incr_turns. by rewrite decide_True. Qed.

Lemma mutate_spec f fx fy tx ty o u d :
  get_cell f fx fy = Done (Some u) -> get_cell f tx ty = Done d ->
  (fx, fy) <> (tx, ty) ->
  match o with None => True | Some _ => is_Some d end ->
  exists f', mutate f fx fy tx ty o = Done f' /\
    forall x y, get_cell f' x y =
      if decide ((x, y) = (tx, ty)) then Done (fst (moved_cells o u d))
      else if decide ((x, y) = (fx, fy)) then Done (snd (moved_cells o u d))
      else get_cell f x y.
Proof.
  intros Hf Ht Hne Hd.
  assert (Hne' : (tx, ty) <> (fx, fy)) by congruence.
  destruct o as [[| |]|]; simpl; unfold reveal, mbind, res_bind.
  - (* Win *)
    rewrite Hf.
    destruct (set_cell_ok f tx ty d (Some u) Ht) as [f1 H1]. rewrite H1.
    assert (G1 : get_cell f1 fx fy = Done (Some u))
      by (rewrite (get_set_cell _ _ _ _ _ _ _ H1), decide_False; auto).
    destruct (set_cell_ok f1 fx fy _ None G1) as [f2 H2]. rewrite H2.
    assert (G2 : get_cell f2 tx ty = Done (Some u))
      by (rewrite (get_set_cell _ _ _ _ _ _ _ H2), decide_False, (get_set_cell _ _ _ _ _ _ _ H1), decide_True; auto).
    rewrite G2. simpl.
    destruct (set_cell_ok f2 tx ty _ (Some (set_visible u)) G2) as [f3 H3]. rewrite H3.
    exists f3. split; [done|]. intros x y.
    rewrite (get_set_cell _ _ _ _ _ x y H3), (get_set_cell _ _ _ _ _ x y H2),
      (get_set_cell _ _ _ _ _ x y H1).
    repeat case_decide; congruence.
  - (* Lose *)
    destruct Hd as [dd ->].
    destruct (set_cell_ok f fx fy _ None Hf) as [f1 H1]. rewrite H1.
    assert (G1 : get_cell f1 tx ty = Done (Some dd))
      by (rewrite (get_set_cell _ _ _ _ _ _ _ H1), decide_False; auto).
    rewrite G1. simpl.
    destruct (set_cell_ok f1 tx ty _ (Some (set_visible dd)) G1) as [f2 H2]. rewrite H2.
    exists f2. split; [done|]. intros x y.
    rewrite (get_set_cell _ _ _ _ _ x y H2), (get_set_cell _ _ _ _ _ x y H1).
    repeat case_decide; congruence.
  - (* Draw *)
    destruct Hd as [dd ->].
    rewrite Hf. simpl.
    destruct (set_cell_ok f fx fy _ (Some (set_visible u)) Hf) as [f1 H1]. rewrite H1.
    assert (G1 : get_cell f1 tx ty = Done (Some dd))
      by (rewrite (get_set_cell _ _ _ _ _ _ _ H1), decide_False; auto).
    rewrite G1. simpl.
    destruct (set_cell_ok f1 tx ty _ (Some (set_visible dd)) G1) as [f2 H2]. rewrite H2.
    exists f2. split; [done|]. intros x y.
    rewrite (get_set_cell _ _ _ _ _ x y H2), (get_set_cell _ _ _ _ _ x y H1).
    repeat case_decide; congruence.
  - (* plain relocation *)
    rewrite Hf.
    destruct (set_cell_ok f tx ty d (Some u) Ht) as [f1 H1]. rewrite H1.
    assert (G1 : get_cell f1 fx fy = Done (Some u))
      by (rewrite (get_set_cell _ _ _ _ _ _ _ H1), decide_False; auto).
    destruct (set_cell_ok f1 fx fy _ None G1) as [f2 H2]. rewrite H2.
    exists f2. split; [done|]. intros x y.
    rewrite (get_set_cell _ _ _ _ _ x y H2), (get_set_cell _ _ _ _ _ x y H1).
    repeat case_decide; congruence.
Qed.

Lemma wf_field_spec f :
  wf_field f = true <->
  length f = HEIGHT /\ forall y row, f !! y = Some row -> length row = WIDTH.
Proof.
  unfold wf_field. rewrite andb_true_iff, bool_decide_eq_true, forallb_forall.
  split; intros [Hl Hr]; split; auto.
  - intros y row Hy. apply (bool_decide_eq_true_1 _), Hr.
    apply list_elem_of_In, list_elem_of_lookup. eauto.
  - intros row Hin. apply bool_decide_eq_true_2.
    apply list_elem_of_In, list_elem_of_lookup in Hin as [y Hy]. eauto.
Qed.

Lemma wf_get f x y :
  wf_field f = true -> x < WIDTH -> y < HEIGHT -> exists c, get_cell f x y = Done c.
Proof.
  intros [Hl Hr]%wf_field_spec Hx Hy. unfold get_cell.
  destruct (f !! y) as [row|] eqn:Hfy; [|apply lookup_ge_None in Hfy; lia].
  apply Hr in Hfy. destruct (row !! x) as [c|] eqn:Hrx; [eauto|].
  apply lookup_ge_None in Hrx. lia.
Qed.

Lemma set_cell_wf f x y v f' :
  wf_field f = true -> set_cell f x y v = Done f' -> wf_field f' = true.
Proof.
  intros [Hl Hr]%wf_field_spec (Hl' & Hr')%set_cell_length.
  apply wf_field_spec. split; [lia|].
  intros y' row' H. destruct (Hr' _ _ H) as (row & H1 & ->). eauto.
Qed.

Lemma reveal_wf f x y f' :
  wf_field f = true -> reveal f x y = Done f' -> wf_field f' = true.
Proof.
  unfold reveal, mbind, res_bind. intros Hwf.
  destruct (get_cell f x y) as [[u|]|]; simpl; try discriminate.
  eauto using set_cell_wf.
Qed.

Lemma mutate_wf f fx fy tx ty o f' :
  wf_field f = true -> mutate f fx fy tx ty o = Done f' -> wf_field f' = true.
Proof.
  intros Hwf. destruct o as [[| |]|]; simpl; unfold mbind, res_bind;
    repeat match goal with
    | |- context [match ?m with Done _ => _ | Panicked => _ end] =>
        let E := fresh "E" in
        destruct m eqn:E; [|discriminate]
    end; eauto 6 using set_cell_wf, reveal_wf.
Qed.

Section Rules_props.

Variable is_valid : Move -> bool.
Variable apply : Move -> Player -> nat * nat.
Variable win_condition : Field -> option Player.

Abbreviation make_move := (make_move is_valid apply win_condition).
Abbreviation finish := (finish win_condition).

Lemma finish_Done self fx fy tx ty o g' r :
  finish self fx fy tx ty o = Done (g', r) ->
  exists f', mutate (field self) fx fy tx ty o = Done f' /\
    (turns self < U32_MAX)%N /\
    g' = mkGame (turns self + 1) (next (current_turn self)) (win_condition f') f' /\
    r = inl o.
Proof.
  unfold finish, mbind, res_bind.
  destruct (mutate _ _ _ _ _ _) as [f'|]; [|discriminate].
  destruct (incr_turns _) as [t|] eqn:Ht; [|discriminate].
  apply incr_turns_Done in Ht as [? ->]. intros [= <- <-]. eauto.
Qed.

(** Every way [make_move] can end without a panic: a rejection that hands
    back [self], or an accepted move through [finish] after all the checks. *)
Lemma make_move_cases g m g' r :
  make_move g m = Done (g', r) ->
  (exists e, r = inr e /\ g' = g) \/
  (exists fx fy tx ty u d o,
     winner g = None /\ is_valid m = true /\ from m = (fx, fy) /\
     fx < WIDTH /\ fy < HEIGHT /\
     get_cell (field g) fx fy = Done (Some u) /\ owner u = current_turn g /\
     apply m (current_turn g) = (tx, ty) /\ tx < WIDTH /\ ty < HEIGHT /\
     get_cell (field g) tx ty = Done d /\
     match d with
     | None => o = None
     | Some dd => owner dd <> current_turn g /\ o = Some (attack (rps u) (rps dd))
     end /\
     finish g fx fy tx ty o = Done (g', r)).
Proof.
  unfold make_move, mbind, res_bind.
  destruct (winner g) eqn:Hw; [intros [= <- <-]; left; eauto|].
  destruct (is_valid m) eqn:Hv; simpl; [|intros [= <- <-]; left; eauto].
  destruct (from m) as [fx fy] eqn:Hf.
  destruct (bool_decide (WIDTH <= fx)) eqn:Bx; simpl; [intros [= <- <-]; left; eauto|].
  destruct (bool_decide (HEIGHT <= fy)) eqn:By; simpl; [intros [= <- <-]; left; eauto|].
  apply bool_decide_eq_false in Bx, By.
  destruct (get_cell (field g) fx fy) as [[u|]|] eqn:Hc;
    [|intros [= <- <-]; left; eauto|discriminate].
  case_bool_decide as Ho; [intros [= <- <-]; left; eauto|].
  rewrite Ho.
  destruct (apply m (current_turn g)) as [tx ty] eqn:Ha.
  destruct (bool_decide (WIDTH <= tx)) eqn:Tx; simpl; [intros [= <- <-]; left; eauto|].
  destruct (bool_decide (HEIGHT <= ty)) eqn:Ty; simpl; [intros [= <- <-]; left; eauto|].
  apply bool_decide_eq_false in Tx, Ty.
  destruct (get_cell (field g) tx ty) as [[dd|]|] eqn:Hd; [| |discriminate].
  - case_bool_decide; [intros [= <- <-]; left; eauto|].
    unfold unit_attack. intros Hfin. right.
    exists fx, fy, tx, ty, u, (Some dd), (Some (attack (rps u) (rps dd))).
    repeat split; auto; lia.
  - intros Hfin. right. exists fx, fy, tx, ty, u, None, None. repeat split; auto; lia.
Qed.

(** C1: a rejected move, whatever its error (GameAlreadyFinished,
    DeclinedByMoveCondition, PositionOutOfBounds, WrongOwner,
    NoUnitInPosition, SameOwner, UnexpextedError), leaves the whole game
    (field, turns, current_turn and winner) exactly as it was. *)
Theorem make_move_error_atomic g m g' e :
  make_move g m = Done (g', inr e) -> g' = g.
Proof.
  intros H. destruct (make_move_cases _ _ _ _ H)
    as [(e' & _ & ->) | (fx & fy & tx & ty & u & d & o & _ & _ & _ & _ & _ & _ & _ & _ & _ & _ & _ & _ & Hf)];
    [done|].
  apply finish_Done in Hf as (? & _ & _ & _ & ?). discriminate.
Qed.

(** C2: once the winner is set, make_move answers GameAlreadyFinished and
    hands the game back unchanged, and force_win does nothing. *)
Theorem finished_game_is_final g p m q :
  winner g = Some p ->
  make_move g m = Done (g, inr GameAlreadyFinished) /\ force_win g q = g.
Proof. intros Hw. unfold make_move, force_win. rewrite Hw. done. Qed.

(** C3: an accepted move adds exactly one to turns and hands the turn to the
    other player; a rejected move changes neither. *)
Theorem make_move_turn_alternation g m g' r :
  make_move g m = Done (g', r) ->
  match r with
  | inl _ => turns g' = (turns g + 1)%N /\ current_turn g' = next (current_turn g) /\
             current_turn g' <> current_turn g
  | inr _ => turns g' = turns g /\ current_turn g' = current_turn g
  end.
Proof.
  intros H. destruct (make_move_cases _ _ _ _ H)
    as [(e & -> & ->) | (fx & fy & tx & ty & u & d & o & _ & _ & _ & _ & _ & _ & _ & _ & _ & _ & _ & _ & Hf)];
    [done|].
  apply finish_Done in Hf as (f' & _ & _ & -> & ->). simpl.
  split; [done|]. split; [done|]. destruct (current_turn g); discriminate.
Qed.

Lemma cell_neq_of_get f fx fy tx ty u d :
  get_cell f fx fy = Done (Some u) -> get_cell f tx ty = Done d ->
  d <> Some u -> (fx, fy) <> (tx, ty).
Proof. intros H1 H2 Hd [= -> ->]. congruence. Qed.

(** C4 (amended): for a move that passes the finished-game, shape, bounds,
    origin and ownership checks, in a state whose turn counter is below
    u32::MAX: an empty destination gives Ok(None), the origin unit moved to
    the destination and the origin cleared, nothing else changed; a friendly
    destination gives Err(SameOwner); an opposing one gives Ok(Some o) with o
    the RPS combat result of the two units. *)
Theorem make_move_destination_cases g m fx fy tx ty u :
  winner g = None -> is_valid m = true -> from m = (fx, fy) ->
  fx < WIDTH -> fy < HEIGHT ->
  get_cell (field g) fx fy = Done (Some u) -> owner u = current_turn g ->
  apply m (owner u) = (tx, ty) -> tx < WIDTH -> ty < HEIGHT ->
  (turns g < U32_MAX)%N ->
  (get_cell (field g) tx ty = Done None ->
     exists g', make_move g m = Done (g', inl None) /\
       get_cell (field g') tx ty = Done (Some u) /\
       get_cell (field g') fx fy = Done None /\
       forall x y, (x, y) <> (tx, ty) -> (x, y) <> (fx, fy) ->
         get_cell (field g') x y = get_cell (field g) x y) /\
  (forall d, get_cell (field g) tx ty = Done (Some d) -> owner d = current_turn g ->
     make_move g m = Done (g, inr SameOwner)) /\
  (forall d, get_cell (field g) tx ty = Done (Some d) -> owner d <> current_turn g ->
     exists g', make_move g m = Done (g', inl (Some (attack (rps u) (rps d))))).
Proof.
  intros Hw Hv Hfrom Hfx Hfy Hc Ho Ha Htx Hty Ht.
  assert (Hmm : make_move g m =
      mbind (fun d => match d with
      | Some defender =>
          if bool_decide (owner defender = current_turn g)
          then Done (g, inr SameOwner) else
          match unit_attack u defender with
          | None => Done (g, inr UnexpextedError)
          | Some r => finish g fx fy tx ty (Some r)
          end
      | None => finish g fx fy tx ty None
      end) (get_cell (field g) tx ty)).
  { unfold make_move. rewrite Hw, Hv. simpl. rewrite Hfrom.
    rewrite !bool_decide_eq_false_2 by lia. simpl.
    unfold mbind at 1, res_bind at 1. rewrite Hc.
    rewrite bool_decide_eq_false_2 by (intros []; done). rewrite Ha.
    rewrite !bool_decide_eq_false_2 by lia. reflexivity. }
  repeat split.
  - intros Hd. rewrite Hmm, Hd. simpl.
    destruct (mutate_spec (field g) fx fy tx ty None u None Hc Hd)
      as (f' & Hmu & Hget); [eapply cell_neq_of_get; eauto; discriminate|done|].
    unfold finish, mbind, res_bind. rewrite Hmu, incr_turns_lt by done.
    eexists. split; [reflexivity|]. simpl.
    rewrite !Hget. rewrite decide_True by done. split; [done|].
    rewrite decide_False by (eapply cell_neq_of_get; eauto; discriminate).
    rewrite decide_True by done. split; [done|].
    intros x y H1 H2. rewrite Hget, decide_False, decide_False; done.
  - intros d Hd Hod. rewrite Hmm, Hd. simpl. by rewrite bool_decide_eq_true_2.
  - intros d Hd Hod. rewrite Hmm, Hd. simpl. rewrite bool_decide_eq_false_2 by done.
    unfold unit_attack.
    destruct (mutate_spec (field g) fx fy tx ty (Some (attack (rps u) (rps d))) u (Some d) Hc Hd)
      as (f' & Hmu & _); [eapply cell_neq_of_get; eauto; congruence|done|].
    unfold finish, mbind, res_bind. rewrite Hmu, incr_turns_lt by done.
    eexists. reflexivity.
Qed.

(** C5: in an accepted combat move, on Win the attacker moves to the
    destination with its visible flag set and the origin is cleared; on Lose
    the origin is cleared and the defender stays, made visible; on Draw both
    stay, both made visible.  Every other cell is untouched. *)
Theorem combat_board_update g m g' o :
  make_move g m = Done (g', inl (Some o)) ->
  exists fx fy tx ty u d,
    from m = (fx, fy) /\ apply m (current_turn g) = (tx, ty) /\
    get_cell (field g) fx fy = Done (Some u) /\ get_cell (field g) tx ty = Done (Some d) /\
    owner u = current_turn g /\ owner d <> current_turn g /\ o = attack (rps u) (rps d) /\
    match o with
    | Win => get_cell (field g') tx ty = Done (Some (set_visible u)) /\
             get_cell (field g') fx fy = Done None
    | Lose => get_cell (field g') fx fy = Done None /\
              get_cell (field g') tx ty = Done (Some (set_visible d))
    | Draw => get_cell (field g') fx fy = Done (Some (set_visible u)) /\
              get_cell (field g') tx ty = Done (Some (set_visible d))
    end /\
    forall x y, (x, y) <> (tx, ty) -> (x, y) <> (fx, fy) ->
      get_cell (field g') x y = get_cell (field g) x y.
Proof.
  intros H. destruct (make_move_cases _ _ _ _ H)
    as [(e & ? & _) | (fx & fy & tx & ty & u & d & o' & Hw & Hv & Hfrom & _ & _ & Hc & Ho
                       & Ha & _ & _ & Hd & Hdo & Hf)]; [discriminate|].
  apply finish_Done in Hf as (f' & Hmu & _ & -> & Hr). injection Hr as <-.
  destruct d as [dd|]; [|discriminate]. destruct Hdo as [Hdo [= ->]].
  destruct (mutate_spec (field g) fx fy tx ty (Some (attack (rps u) (rps dd))) u (Some dd) Hc Hd)
    as (f'' & Hmu' & Hget); [eapply cell_neq_of_get; eauto; congruence|done|].
  rewrite Hmu' in Hmu. injection Hmu as <-.
  assert (Hne : (fx, fy) <> (tx, ty)) by (eapply cell_neq_of_get; eauto; congruence).
  exists fx, fy, tx, ty, u, dd. simpl.
  do 7 (split; [done|]). split.
  - destruct (attack (rps u) (rps dd)); simpl; rewrite !Hget;
      rewrite (decide_True _ _ (eq_refl (tx, ty)));
      rewrite (decide_False _ _ Hne), (decide_True _ _ (eq_refl (fx, fy))); done.
  - intros x y H1 H2. rewrite Hget, !decide_False; done.
Qed.

(** C7: visibility never goes back: a unit on the board after a make_move
    call (accepted or rejected) comes from the cell [source_cell] of the
    board before, with the same owner and kind, and if it was visible it
    still is; force_win does not touch the board. *)
Theorem visibility_monotone g m g' r x y u' :
  make_move g m = Done (g', r) ->
  get_cell (field g') x y = Done (Some u') ->
  (let '(sx, sy) := source_cell apply g m r x y in
   exists u, get_cell (field g) sx sy = Done (Some u) /\
     owner u = owner u' /\ rps u = rps u' /\
     (visible u = true -> visible u' = true)) /\
  (forall p, field (force_win g p) = field g).
Proof.
  intros H Hxy. split; [|intros p; unfold force_win; by destruct (winner g)].
  destruct (make_move_cases _ _ _ _ H)
    as [(e & -> & ->) | (fx & fy & tx & ty & u & d & o & Hw & Hv & Hfrom & _ & _ & Hc & Ho
                         & Ha & _ & _ & Hd & Hdo & Hf)]; [simpl; eauto|].
  apply finish_Done in Hf as (f' & Hmu & _ & -> & ->). simpl in Hxy.
  assert (Hne : (fx, fy) <> (tx, ty)).
  { eapply cell_neq_of_get; eauto. destruct d; [destruct Hdo; congruence|discriminate]. }
  destruct (mutate_spec (field g) fx fy tx ty o u d Hc Hd Hne)
    as (f'' & Hmu' & Hget); [by destruct o, d as [dd|]; [| |subst|]; eauto|].
  rewrite Hmu' in Hmu. injection Hmu as <-.
  rewrite Hget in Hxy. unfold source_cell. rewrite Ha, Hfrom.
  destruct (decide ((x, y) = (tx, ty))) as [Heq|Hnt].
  - injection Heq as -> ->.
    destruct o as [[| |]|]; simpl in Hxy.
    + injection Hxy as <-. simpl. exists u. auto.
    + destruct d as [dd|]; [|discriminate]. injection Hxy as <-. exists dd. auto.
    + destruct d as [dd|]; [|discriminate]. injection Hxy as <-. exists dd. auto.
    + injection Hxy as <-. simpl. exists u. auto.
  - destruct (decide ((x, y) = (fx, fy))) as [Heq|Hnf].
    + injection Heq as -> ->.
      destruct o as [[| |]|]; simpl in Hxy; try discriminate.
      injection Hxy as <-. exists u. simpl. auto.
    + destruct o as [[| |]|]; simpl; eauto 10.
Qed.

(** Every reachable state has a well-formed board. *)
Lemma reachable_wf g : reachable is_valid apply win_condition g -> wf_field (field g) = true.
Proof.
  induction 1 as [draws| g m g' r _ IH H | g p _ IH].
  - vm_compute. reflexivity.
  - destruct (make_move_cases _ _ _ _ H)
      as [(e & ? & _) | (fx & fy & tx & ty & u & d & o & _ & _ & _ & _ & _ & _ & _ & _ & _ & _ & _ & _ & Hf)];
      [discriminate|].
    apply finish_Done in Hf as (f' & Hmu & _ & -> & _). simpl. eauto using mutate_wf.
  - unfold force_win. by destruct (winner g).
Qed.

(** C9 (amended): on a well-formed board (every reachable state has one) and
    with a turn counter below u32::MAX, make_move never panics: the origin and
    destination reads are in bounds and the unwraps of the Win/Lose/Draw arms
    find a unit; every failure is a MoveError value. *)
Theorem make_move_no_panic g m :
  wf_field (field g) = true -> (turns g < U32_MAX)%N -> make_move g m <> Panicked.
Proof.
  intros Hwf Ht. unfold make_move, mbind, res_bind.
  destruct (winner g); [discriminate|].
  destruct (is_valid m); simpl; [|discriminate].
  destruct (from m) as [fx fy].
  destruct (bool_decide (WIDTH <= fx)) eqn:Bx; simpl; [discriminate|].
  destruct (bool_decide (HEIGHT <= fy)) eqn:By; simpl; [discriminate|].
  apply bool_decide_eq_false in Bx, By.
  destruct (wf_get _ fx fy Hwf) as [c Hc]; [lia|lia|]. rewrite Hc.
  destruct c as [u|]; [|discriminate].
  case_bool_decide as Ho; [discriminate|].
  destruct (apply m (owner u)) as [tx ty] eqn:Ha.
  destruct (bool_decide (WIDTH <= tx)) eqn:Tx; simpl; [discriminate|].
  destruct (bool_decide (HEIGHT <= ty)) eqn:Ty; simpl; [discriminate|].
  apply bool_decide_eq_false in Tx, Ty.
  destruct (wf_get _ tx ty Hwf) as [d Hd]; [lia|lia|]. rewrite Hd.
  destruct d as [dd|].
  - case_bool_decide; [discriminate|]. unfold unit_attack.
    destruct (mutate_spec _ fx fy tx ty (Some (attack (rps u) (rps dd))) u (Some dd) Hc Hd)
      as (f' & Hmu & _); [eapply cell_neq_of_get; eauto; congruence|done|].
    unfold finish, mbind, res_bind. rewrite Hmu, incr_turns_lt by done. discriminate.
  - destruct (mutate_spec _ fx fy tx ty None u None Hc Hd)
      as (f' & Hmu & _); [eapply cell_neq_of_get; eauto; discriminate|done|].
    unfold finish, mbind, res_bind. rewrite Hmu, incr_turns_lt by done. discriminate.
Qed.

End Rules_props.

(** C6: RPS::attack realises the cyclic dominance over all nine pairs:
    Rock beats Scissors, Scissors beats Paper, Paper beats Rock, the converse
    pairs lose, equal kinds draw; so attack a b = Win iff attack b a = Lose,
    and attack a a = Draw. *)
Theorem attack_cyclic_dominance :
  attack Rock Scissors = Win /\ attack Scissors Paper = Win /\ attack Paper Rock = Win /\
  attack Scissors Rock = Lose /\ attack Paper Scissors = Lose /\ attack Rock Paper = Lose /\
  (forall a, attack a a = Draw) /\
  (forall a b, attack a b = Win <-> attack b a = Lose).
Proof.
  repeat split; try reflexivity.
  - intros []; reflexivity.
  - destruct a, b; simpl; congruence.
  - destruct a, b; simpl; congruence.
Qed.

(* ------------------------------------------------------------------ *)
(** ** The initial board *)

Lemma new_rows_lookup draws y :
  y < HEIGHT -> new_rows draws !! y = Some (replicate WIDTH (seed_cell draws y)).
Proof.
  intros Hy. unfold HEIGHT in Hy.
  do 8 (destruct y as [|y]; [reflexivity|]). lia.
Qed.

Lemma get_cell_new draws x y :
  x < WIDTH -> y < HEIGHT -> get_cell (new_rows draws) x y = Done (seed_cell draws y).
Proof.
  intros Hx Hy. unfold get_cell. rewrite new_rows_lookup by done.
  rewrite lookup_replicate_2 by done. reflexivity.
Qed.

(** C8: Game::new starts at turn 1 with Red to move and no winner, on a
    well-formed board whose rows 0..ROWS hold Red units, whose last ROWS rows
    (HEIGHT-1 down to HEIGHT-ROWS) hold Blue units, and whose other cells are
    empty. *)
Theorem new_game_layout draws :
  turns (new draws) = 1%N /\ current_turn (new draws) = Red /\ winner (new draws) = None /\
  wf_field (field (new draws)) = true /\
  forall x y, x < WIDTH -> y < HEIGHT ->
    exists c, get_cell (field (new draws)) x y = Done c /\
      (y < ROWS -> exists u, c = Some u /\ owner u = Red) /\
      (HEIGHT - ROWS <= y -> exists u, c = Some u /\ owner u = Blue) /\
      (ROWS <= y < HEIGHT - ROWS -> c = None).
Proof.
  do 3 (split; [reflexivity|]). split; [vm_compute; reflexivity|].
  intros x y Hx Hy. exists (seed_cell draws y). split; [by apply get_cell_new|].
  unfold seed_cell. unfold ROWS, HEIGHT in *.
  repeat split; intros; repeat case_decide; try lia; eauto.
Qed.

(** C10: each seeded row of the board of Game::new holds one and the same
    unit (one random draw copied across the WIDTH columns), so all its units
    have the same RPS kind. *)
Theorem new_rows_uniform draws y :
  y < ROWS \/ HEIGHT - ROWS <= y < HEIGHT ->
  exists u, forall x, x < WIDTH -> get_cell (field (new draws)) x y = Done (Some u).
Proof.
  intros Hy. simpl.
  assert (Hh : y < HEIGHT) by (unfold ROWS, HEIGHT in *; lia).
  unfold seed_cell.
  destruct (decide (y < ROWS)).
  - eexists. intros x Hx. rewrite get_cell_new by done. unfold seed_cell.
    rewrite decide_True by done. reflexivity.
  - eexists. intros x Hx. rewrite get_cell_new by done. unfold seed_cell.
    rewrite decide_False, decide_True by (unfold ROWS, HEIGHT in *; lia). reflexivity.
Qed.

(* ------------------------------------------------------------------ *)
(** ** A concrete game: a drawn exchange repeated until the counter is full *)

Lemma play_reachable g ms : reachable_rps g -> reachable_rps (play g ms).
Proof.
  revert g. induction ms as [|m ms IH]; intros g Hg; simpl; [done|].
  destruct (rps_move g m) as [[g' [o|e]]|] eqn:E; auto.
  apply IH. eapply reach_move; eauto.
Qed.

Lemma loop_state_7 : reachable_rps (loop_state 7).
Proof.
  assert (E : loop_state 7 = play (new all_rock) opening) by (vm_compute; reflexivity).
  rewrite E. apply play_reachable, reach_new.
Qed.

Lemma red_draw t :
  (t < U32_MAX)%N ->
  rps_move (loop_state t) red_attack = Done (mkGame (t + 1) Blue None loop_field, inl (Some Draw)).
Proof.
  intros Ht. unfold rps_move, make_move, finish, loop_state.
  let lf := eval vm_compute in loop_field in change loop_field with lf.
  cbv -[incr_turns]. rewrite incr_turns_lt by exact Ht. reflexivity.
Qed.

Lemma blue_draw t :
  (t < U32_MAX)%N ->
  rps_move (mkGame t Blue None loop_field) blue_attack
  = Done (loop_state (t + 1), inl (Some Draw)).
Proof.
  intros Ht. unfold rps_move, make_move, finish, loop_state.
  let lf := eval vm_compute in loop_field in change loop_field with lf.
  cbv -[incr_turns]. rewrite incr_turns_lt by exact Ht. reflexivity.
Qed.

Lemma loop_state_step t :
  (t + 2 <= U32_MAX)%N -> reachable_rps (loop_state t) -> reachable_rps (loop_state (t + 2)).
Proof.
  intros Ht H.
  assert (H1 : reachable_rps (mkGame (t + 1) Blue None loop_field))
    by (eapply reach_move; [exact H | apply red_draw; lia]).
  replace (t + 2)%N with (t + 1 + 1)%N by lia.
  eapply reach_move; [exact H1 | apply blue_draw; lia].
Qed.

Lemma loop_state_reachable k :
  (7 + 2 * k <= U32_MAX)%N -> reachable_rps (loop_state (7 + 2 * k)).
Proof.
  induction k as [|k IH] using N.peano_ind; intros Hk.
  - apply loop_state_7.
  - replace (7 + 2 * N.succ k)%N with (7 + 2 * k + 2)%N by lia.
    apply loop_state_step; [lia|]. apply IH. lia.
Qed.

(** The state reached after [u32::MAX - 1] accepted moves. *)
Lemma loop_state_max_reachable : reachable_rps (loop_state U32_MAX).
Proof.
  replace U32_MAX with (7 + 2 * 2147483644)%N by reflexivity.
  apply loop_state_reachable. unfold U32_MAX. lia.
Qed.

(* ------------------------------------------------------------------ *)
(** ** Witnesses: the theorems at concrete inputs *)

Lemma make_move_error_atomic_witness :
  rps_move (new all_rock) (mkMove (0, 3) Forward)
    = Done (new all_rock, inr NoUnitInPosition) /\
  new all_rock = new all_rock.
Proof.
  split; [reflexivity|].
  apply (make_move_error_atomic only_forward move_apply eliminate
           (new all_rock) (mkMove (0, 3) Forward) (new all_rock) NoUnitInPosition).
  reflexivity.
Defined.

Lemma finished_game_is_final_witness :
  winner (force_win (new all_rock) Blue) = Some Blue /\
  rps_move (force_win (new all_rock) Blue) first_move
    = Done (force_win (new all_rock) Blue, inr GameAlreadyFinished) /\
  force_win (force_win (new all_rock) Blue) Red = force_win (new all_rock) Blue.
Proof.
  split; [reflexivity|].
  apply (finished_game_is_final only_forward move_apply eliminate
           (force_win (new all_rock) Blue) Blue first_move Red).
  reflexivity.
Defined.

Lemma make_move_turn_alternation_witness :
  rps_move (new all_rock) first_move
    = Done (play (new all_rock) [first_move], inl None) /\
  turns (play (new all_rock) [first_move]) = (turns (new all_rock) + 1)%N /\
  current_turn (play (new all_rock) [first_move]) = next (current_turn (new all_rock)) /\
  current_turn (play (new all_rock) [first_move]) <> current_turn (new all_rock).
Proof.
  split; [vm_compute; reflexivity|].
  apply (make_move_turn_alternation only_forward move_apply eliminate
           (new all_rock) first_move (play (new all_rock) [first_move]) (inl None)).
  vm_compute. reflexivity.
Defined.

Lemma make_move_destination_cases_witness :
  (get_cell (field (new all_rock)) 0 2 = Done None ->
     exists g', rps_move (new all_rock) first_move = Done (g', inl None) /\
       get_cell (field g') 0 2 = Done (Some (unit Red Rock)) /\
       get_cell (field g') 0 1 = Done None /\
       forall x y, (x, y) <> (0, 2) -> (x, y) <> (0, 1) ->
         get_cell (field g') x y = get_cell (field (new all_rock)) x y) /\
  (forall d, get_cell (field (new all_rock)) 0 2 = Done (Some d) ->
     owner d = current_turn (new all_rock) ->
     rps_move (new all_rock) first_move = Done (new all_rock, inr SameOwner)) /\
  (forall d, get_cell (field (new all_rock)) 0 2 = Done (Some d) ->
     owner d <> current_turn (new all_rock) ->
     exists g', rps_move (new all_rock) first_move
                = Done (g', inl (Some (attack (rps (unit Red Rock)) (rps d))))).
Proof.
  apply (make_move_destination_cases only_forward move_apply eliminate
           (new all_rock) first_move 0 1 0 2 (unit Red Rock));
    try reflexivity; vm_compute; lia.
Defined.

Lemma combat_board_update_witness :
  rps_move (loop_state 7) red_attack = Done (mkGame 8 Blue None loop_field, inl (Some Draw)) /\
  exists fx fy tx ty u d,
    from red_attack = (fx, fy) /\ move_apply red_attack (current_turn (loop_state 7)) = (tx, ty) /\
    get_cell (field (loop_state 7)) fx fy = Done (Some u) /\
    get_cell (field (loop_state 7)) tx ty = Done (Some d) /\
    owner u = current_turn (loop_state 7) /\ owner d <> current_turn (loop_state 7) /\
    Draw = attack (rps u) (rps d) /\
    (get_cell loop_field fx fy = Done (Some (set_visible u)) /\
     get_cell loop_field tx ty = Done (Some (set_visible d))) /\
    forall x y, (x, y) <> (tx, ty) -> (x, y) <> (fx, fy) ->
      get_cell loop_field x y = get_cell (field (loop_state 7)) x y.
Proof.
  assert (E : rps_move (loop_state 7) red_attack
              = Done (mkGame 8 Blue None loop_field, inl (Some Draw))).
  { vm_compute. reflexivity. }
  split; [exact E|].
  exact (combat_board_update only_forward move_apply eliminate
           (loop_state 7) red_attack (mkGame 8 Blue None loop_field) Draw E).
Defined.

Lemma visibility_monotone_witness :
  rps_move (new all_rock) first_move = Done (play (new all_rock) [first_move], inl None) /\
  get_cell (field (play (new all_rock) [first_move])) 0 2 = Done (Some (unit Red Rock)) /\
  (let '(sx, sy) := source_cell move_apply (new all_rock) first_move (inl None) 0 2 in
   exists u, get_cell (field (new all_rock)) sx sy = Done (Some u) /\
     owner u = owner (unit Red Rock) /\ rps u = rps (unit Red Rock) /\
     (visible u = true -> visible (unit Red Rock) = true)) /\
  (forall p, field (force_win (new all_rock) p) = field (new all_rock)).
Proof.
  split; [vm_compute; reflexivity|]. split; [vm_compute; reflexivity|].
  apply (visibility_monotone only_forward move_apply eliminate
           (new all_rock) first_move (play (new all_rock) [first_move]) (inl None) 0 2
           (unit Red Rock)); vm_compute; reflexivity.
Defined.

Lemma make_move_no_panic_witness :
  wf_field (field (new all_rock)) = true /\ (turns (new all_rock) < U32_MAX)%N /\
  rps_move (new all_rock) first_move <> Panicked.
Proof.
  split; [reflexivity|]. split; [vm_compute; reflexivity|].
  apply (make_move_no_panic only_forward move_apply eliminate (new all_rock) first_move);
    [reflexivity | vm_compute; reflexivity].
Defined.

Lemma new_rows_uniform_witness :
  (0 < ROWS \/ HEIGHT - ROWS <= 0 < HEIGHT) /\
  exists u, forall x, x < WIDTH -> get_cell (field (new all_rock)) x 0 = Done (Some u).
Proof.
  split; [left; vm_compute; lia|].
  apply (new_rows_uniform all_rock 0). left. vm_compute. lia.
Defined.

(* ------------------------------------------------------------------ *)
(** ** Counterexamples: the turn counter at u32::MAX *)

(** C9: in a reachable state (u32::MAX - 1 accepted moves, a repeated
    Draw exchange), an accepted move panics on [self.turns += 1]. *)
Lemma make_move_panics_at_counter_limit :
  reachable_rps (loop_state U32_MAX) /\
  rps_move (loop_state U32_MAX) red_attack = Panicked.
Proof. split; [apply loop_state_max_reachable | vm_compute; reflexivity]. Qed.

(** C4: a relocation onto an empty cell that passes every check, in that
    same state, panics instead of returning Ok(None). *)
Lemma relocation_panics_at_counter_limit :
  reachable_rps (loop_state U32_MAX) /\
  winner (loop_state U32_MAX) = None /\ only_forward (mkMove (1, 1) Forward) = true /\
  get_cell (field (loop_state U32_MAX)) 1 1 = Done (Some (unit Red Rock)) /\
  current_turn (loop_state U32_MAX) = Red /\
  move_apply (mkMove (1, 1) Forward) Red = (1, 2) /\
  get_cell (field (loop_state U32_MAX)) 1 2 = Done None /\
  rps_move (loop_state U32_MAX) (mkMove (1, 1) Forward) = Panicked.
Proof.
  split; [apply loop_state_max_reachable|].
  repeat split; vm_compute; reflexivity.
Qed.

(* ------------------------------------------------------------------ *)
(** ** Further properties of the code *)

Lemma random_of_mod r : random_of r = random_of (r mod 3)%N.
Proof. unfold random_of. by rewrite N.Div0.mod_mod. Qed.

Example random_of_3 : random_of 3 = Done Rock /\ random_of 4 = Done Paper /\ random_of 5 = Done Scissors.
Proof. split_and!; reflexivity. Qed.

Lemma count_draws_S k n :
  count_draws k (S n) = count_draws k n + (if draw_is k (N.of_nat n) then 1 else 0).
Proof. reflexivity. Qed.

Lemma count_draws_step k q :
  count_draws k (3 * S q) =
  count_draws k (3 * q) + (if draw_is k 0 then 1 else 0) + (if draw_is k 1 then 1 else 0)
  + (if draw_is k 2 then 1 else 0).
Proof.
  replace (3 * S q) with (S (S (S (3 * q)))) by lia. rewrite !count_draws_S.
  unfold draw_is. rewrite !(random_of_mod (N.of_nat _)).
  assert (M : forall j, (j < 3)%N -> ((3 * N.of_nat q + j) mod 3)%N = j).
  { intros j Hj. rewrite N.add_comm, N.mul_comm, N.Div0.mod_add. by apply N.mod_small. }
  replace (N.of_nat (3 * q)) with (3 * N.of_nat q + 0)%N by lia.
  replace (N.of_nat (S (3 * q))) with (3 * N.of_nat q + 1)%N by lia.
  replace (N.of_nat (S (S (3 * q)))) with (3 * N.of_nat q + 2)%N by lia.
  rewrite !M by lia. lia.
Qed.

Lemma count_draws_3q k q : count_draws k (3 * q) = q.
Proof.
  induction q as [|q IH]; [reflexivity|].
  rewrite count_draws_step, IH. destruct k; simpl; lia.
Qed.

Lemma count_draws_3q1 q :
  count_draws Rock (3 * q + 1) = q + 1 /\ count_draws Paper (3 * q + 1) = q /\
  count_draws Scissors (3 * q + 1) = q.
Proof.
  rewrite Nat.add_1_r, !count_draws_S, !count_draws_3q. unfold draw_is.
  rewrite (random_of_mod (N.of_nat _)).
  replace (N.of_nat (3 * q) mod 3)%N with 0%N;
    [split_and!; simpl; lia|].
  rewrite Nat2N.inj_mul, N.mul_comm. symmetry. apply N.Div0.mod_mul.
Qed.

(** X1: RPS::random never reaches its panic arm: every usize value drawn
    gives a kind, every kind is drawn by some value, and
    Player::random_unit returns an invisible unit of the given player. *)
Theorem random_total :
  (forall r, exists k, random_of r = Done k) /\
  (forall k, exists r, random_of r = Done k) /\
  (forall p r, exists k, random_unit p r = Done (mkUnit p k false)).
Proof.
  assert (T : forall r, exists k, random_of r = Done k).
  { intros r. rewrite random_of_mod.
    assert (H3 : (r mod 3 < 3)%N) by (apply N.mod_lt; lia).
    destruct (r mod 3)%N as [|[[[]|[]|]|[[]|[]|]|]] eqn:E; simpl in H3; try lia; eauto. }
  split_and!; [exact T| |].
  - intros []; [exists 0%N | exists 1%N | exists 2%N]; reflexivity.
  - intros p r. destruct (T r) as [k Hk]. exists k.
    unfold random_unit, mbind, res_bind. by rewrite Hk.
Qed.

(** X2: RPS::random reduces a uniform usize modulo 3, so over the 2^64
    values Rock is drawn by exactly one value more than Paper, and Paper by
    as many as Scissors: the draw is not exactly uniform. *)
Theorem random_modulo_bias :
  count_draws Rock (N.to_nat USIZE_RANGE) = count_draws Paper (N.to_nat USIZE_RANGE) + 1 /\
  count_draws Paper (N.to_nat USIZE_RANGE) = count_draws Scissors (N.to_nat USIZE_RANGE).
Proof.
  assert (E : USIZE_RANGE = (3 * 6148914691236517205 + 1)%N) by reflexivity.
  rewrite E, N2Nat.inj_add, N2Nat.inj_mul.
  change (N.to_nat 3) with 3. change (N.to_nat 1) with 1.
  generalize (N.to_nat 6148914691236517205). intros q.
  destruct (count_draws_3q1 q) as (-> & -> & ->). lia.
Qed.

Lemma filter_insert_count {A} (P : A -> bool) (l : list A) i x y :
  l !! i = Some y ->
  length (List.filter P (<[i:=x]> l)) + (if P y then 1 else 0)
  = length (List.filter P l) + (if P x then 1 else 0).
Proof.
  revert i. induction l as [|a l IH]; intros [|i] H; simpl in *; try discriminate.
  - injection H as ->. destruct (P x), (P y); simpl; lia.
  - specialize (IH i H). destruct (P a); simpl; lia.
Qed.

Lemma filter_concat_insert {A} (P : A -> bool) (f : list (list A)) i r r' :
  f !! i = Some r ->
  length (List.filter P (concat (<[i:=r']> f))) + length (List.filter P r)
  = length (List.filter P (concat f)) + length (List.filter P r').
Proof.
  revert i. induction f as [|a f IH]; intros [|i] H; simpl in *; try discriminate.
  - injection H as ->. rewrite !List.filter_app, !length_app. lia.
  - specialize (IH i H). rewrite !List.filter_app, !length_app. lia.
Qed.

Lemma units_of_set p f x y v f' c :
  set_cell f x y v = Done f' -> get_cell f x y = Done c ->
  units_of p f' + owned p c = units_of p f + owned p v.
Proof.
  intros Hs (row & Hy & Hx)%get_cell_Done.
  unfold set_cell in Hs. rewrite Hy in Hs. case_decide; [|discriminate].
  injection Hs as <-. unfold units_of, Field in *.
  pose proof (filter_concat_insert
    (fun c => match c with Some u => bool_decide (owner u = p) | None => false end)
    f y row (<[x:=v]> row) Hy) as H1.
  pose proof (filter_insert_count
    (fun c => match c with Some u => bool_decide (owner u = p) | None => false end)
    row x v c Hx) as H2.
  unfold owned. destruct c as [cu|], v as [vu|]; simpl in *; lia.
Qed.

Lemma owned_set_visible p u : owned p (Some (set_visible u)) = owned p (Some u).
Proof. reflexivity. Qed.

(** How many units of [p] a move removes, by outcome. *)
Lemma mutate_units p f fx fy tx ty o u d f' :
  get_cell f fx fy = Done (Some u) -> get_cell f tx ty = Done d ->
  (fx, fy) <> (tx, ty) ->
  match o with None => d = None | Some _ => True end ->
  mutate f fx fy tx ty o = Done f' ->
  units_of p f' + match o with
                  | Some Win => owned p d
                  | Some Lose => owned p (Some u)
                  | _ => 0
                  end = units_of p f.
Proof.
  intros Hf Ht Hne Hd Hm.
  assert (Hne' : (tx, ty) <> (fx, fy)) by congruence.
  destruct o as [[| |]|]; simpl in Hm; unfold reveal, mbind, res_bind in Hm.
  - rewrite Hf in Hm.
    destruct (set_cell f tx ty (Some u)) as [f1|] eqn:H1; [|discriminate].
    destruct (set_cell f1 fx fy None) as [f2|] eqn:H2; [|discriminate].
    assert (G1 : get_cell f1 fx fy = Done (Some u))
      by (rewrite (get_set_cell _ _ _ _ _ _ _ H1), decide_False; auto).
    assert (G2 : get_cell f2 tx ty = Done (Some u))
      by (rewrite (get_set_cell _ _ _ _ _ _ _ H2), decide_False, (get_set_cell _ _ _ _ _ _ _ H1), decide_True; auto).
    rewrite G2 in Hm. simpl in Hm.
    pose proof (units_of_set p _ _ _ _ _ _ H1 Ht).
    pose proof (units_of_set p _ _ _ _ _ _ H2 G1).
    pose proof (units_of_set p _ _ _ _ _ _ Hm G2).
    rewrite owned_set_visible in *. simpl owned in *. lia.
  - destruct (set_cell f fx fy None) as [f1|] eqn:H1; [|discriminate].
    assert (G1 : get_cell f1 tx ty = Done d)
      by (rewrite (get_set_cell _ _ _ _ _ _ _ H1), decide_False; auto).
    destruct d as [dd|]; [|rewrite G1 in Hm; discriminate].
    rewrite G1 in Hm. simpl in Hm.
    pose proof (units_of_set p _ _ _ _ _ _ H1 Hf).
    pose proof (units_of_set p _ _ _ _ _ _ Hm G1).
    rewrite owned_set_visible in *. simpl owned in *. lia.
  - rewrite Hf in Hm. simpl in Hm.
    destruct (set_cell f fx fy (Some (set_visible u))) as [f1|] eqn:H1; [|discriminate].
    assert (G1 : get_cell f1 tx ty = Done d)
      by (rewrite (get_set_cell _ _ _ _ _ _ _ H1), decide_False; auto).
    destruct d as [dd|]; [|rewrite G1 in Hm; discriminate].
    rewrite G1 in Hm. simpl in Hm.
    pose proof (units_of_set p _ _ _ _ _ _ H1 Hf).
    pose proof (units_of_set p _ _ _ _ _ _ Hm G1).
    rewrite !owned_set_visible in *. lia.
  - subst d. rewrite Hf in Hm.
    destruct (set_cell f tx ty (Some u)) as [f1|] eqn:H1; [|discriminate].
    assert (G1 : get_cell f1 fx fy = Done (Some u))
      by (rewrite (get_set_cell _ _ _ _ _ _ _ H1), decide_False; auto).
    pose proof (units_of_set p _ _ _ _ _ _ H1 Ht).
    pose proof (units_of_set p _ _ _ _ _ _ Hm G1).
    simpl owned in *. lia.
Qed.

Lemma new_units draws p : units_of p (field (new draws)) = WIDTH * ROWS.
Proof. destruct p; vm_compute; reflexivity. Qed.

Section More_props.

Variable is_valid : Move -> bool.
Variable apply : Move -> Player -> nat * nat.
Variable win_condition : Field -> option Player.

Abbreviation make_move := (make_move is_valid apply win_condition).
Abbreviation reachable := (reachable is_valid apply win_condition).


(** X4: an accepted move never creates a unit: a plain relocation or a Draw
    keeps the number of units of each player; a Win removes exactly one unit
    of the opponent, a Lose exactly one unit of the mover, and the other
    side keeps its count. *)
Theorem make_move_unit_count g m g' o :
  make_move g m = Done (g', inl o) ->
  let cur := current_turn g in
  match o with
  | None | Some Draw => forall p, units_of p (field g') = units_of p (field g)
  | Some Win => units_of (next cur) (field g') + 1 = units_of (next cur) (field g) /\
                units_of cur (field g') = units_of cur (field g)
  | Some Lose => units_of cur (field g') + 1 = units_of cur (field g) /\
                 units_of (next cur) (field g') = units_of (next cur) (field g)
  end.
Proof.
  intros H. destruct (make_move_cases _ _ _ _ _ _ _ H)
    as [(e & ? & _) | (fx & fy & tx & ty & u & d & o' & _ & _ & _ & _ & _ & Hc & Ho
                       & _ & _ & _ & Hd & Hdo & Hf)]; [discriminate|].
  apply finish_Done in Hf as (f' & Hmu & _ & -> & Hr). injection Hr as <-. simpl.
  assert (Hne : (fx, fy) <> (tx, ty)).
  { eapply cell_neq_of_get; eauto. destruct d; [destruct Hdo; congruence|discriminate]. }
  assert (Hd' : match o with None => d = None | Some _ => True end)
    by (destruct o, d; naive_solver).
  pose proof (fun p => mutate_units p _ _ _ _ _ _ _ _ _ Hc Hd Hne Hd' Hmu) as Hu.
  assert (Hown : forall p, owned p (Some u) = if bool_decide (current_turn g = p) then 1 else 0)
    by (intros p; unfold owned; by rewrite Ho).
  destruct d as [dd|].
  - destruct Hdo as [Hdo ->].
    assert (Hdn : owner dd = next (current_turn g))
      by (destruct (owner dd), (current_turn g); simpl in *; congruence).
    assert (Hdw : forall p, owned p (Some dd) = if bool_decide (next (current_turn g) = p) then 1 else 0)
      by (intros p; unfold owned; by rewrite Hdn).
    assert (N1 : next (current_turn g) <> current_turn g) by (destruct (current_turn g); discriminate).
    destruct (attack (rps u) (rps dd)).
    + pose proof (Hu (next (current_turn g))) as A. pose proof (Hu (current_turn g)) as B.
      rewrite Hdw in A, B. rewrite bool_decide_eq_true_2 in A by done.
      rewrite bool_decide_eq_false_2 in B by done. lia.
    + pose proof (Hu (next (current_turn g))) as A. pose proof (Hu (current_turn g)) as B.
      rewrite Hown in A, B. rewrite bool_decide_eq_true_2 in B by done.
      rewrite bool_decide_eq_false_2 in A by congruence. lia.
    + intros p. pose proof (Hu p). lia.
  - subst o. intros p. pose proof (Hu p). lia.
Qed.

(** X5: in every state reachable from Game::new, the turn counter is at
    least 1, and Red is to move exactly when it is odd. *)
Theorem reachable_turn_parity g :
  reachable g -> (1 <= turns g)%N /\ (current_turn g = Red <-> N.odd (turns g) = true).
Proof.
  induction 1 as [draws| g m g' r _ IH H | g p _ IH].
  - split; [simpl; lia|]. simpl. tauto.
  - pose proof (make_move_turn_alternation _ _ _ _ _ _ _ H) as T. simpl in T.
    destruct T as (-> & -> & _). destruct IH as [IH1 IH2].
    split; [lia|]. rewrite N.add_1_r, N.odd_succ, <- N.negb_odd.
    destruct (current_turn g), (N.odd (turns g)); simpl; intuition congruence.
  - unfold force_win. by destruct (winner g).
Qed.

(** X6: no reachable state holds more units of a player than Game::new
    placed (WIDTH * ROWS). *)
Theorem reachable_unit_bound g p :
  reachable g -> units_of p (field g) <= WIDTH * ROWS.
Proof.
  induction 1 as [draws| g m g' o _ IH H | g q _ IH].
  - by rewrite new_units.
  - pose proof (make_move_unit_count _ _ _ _ H) as U. simpl in U.
    destruct o as [[| |]|]; [destruct U as [A B]; clear H ..|specialize (U p); lia|specialize (U p); lia];
      (destruct (decide (p = current_turn g)) as [->|Hp]; [lia|]);
      assert (p = next (current_turn g)) as -> by (revert Hp; destruct p, (current_turn g); simpl; congruence); lia.
  - unfold force_win. by destruct (winner g).
Qed.


(** X8: a move whose destination is its own origin cell passes the bounds
    checks and is rejected with SameOwner, leaving the game unchanged. *)
Theorem move_onto_itself g m fx fy u :
  winner g = None -> is_valid m = true -> from m = (fx, fy) ->
  fx < WIDTH -> fy < HEIGHT ->
  get_cell (field g) fx fy = Done (Some u) -> owner u = current_turn g ->
  apply m (current_turn g) = (fx, fy) ->
  make_move g m = Done (g, inr SameOwner).
Proof.
  intros Hw Hv Hfrom Hfx Hfy Hc Ho Ha.
  unfold make_move. rewrite Hw, Hv. simpl. rewrite Hfrom.
  rewrite !bool_decide_eq_false_2 by lia. simpl.
  unfold mbind, res_bind. rewrite Hc.
  rewrite bool_decide_eq_false_2 by (intros []; done). rewrite Ho, Ha.
  rewrite !bool_decide_eq_false_2 by lia. simpl. rewrite Hc.
  by rewrite bool_decide_eq_true_2.
Qed.

End More_props.

(** X9: Game::new places exactly WIDTH * ROWS units of each player, and no
    unit on the new board is visible. *)
Theorem new_game_units draws :
  (forall p, units_of p (field (new draws)) = WIDTH * ROWS) /\
  (forall x y u, get_cell (field (new draws)) x y = Done (Some u) -> visible u = false).
Proof.
  split; [apply new_units|].
  intros x y u (row & Hy & Hx)%get_cell_Done.
  assert (Hh : y < HEIGHT).
  { assert (Hwf : wf_field (new_rows draws) = true) by (vm_compute; reflexivity).
    apply wf_field_spec in Hwf as [Hl _]. apply lookup_lt_Some in Hy. change (field (new draws)) with (new_rows draws) in Hy. lia. }
  change (field (new draws)) with (new_rows draws) in Hy; rewrite new_rows_lookup in Hy by done. assert (row = replicate WIDTH (seed_cell draws y)) as -> by congruence.
  apply lookup_replicate in Hx as [Hx _]. unfold seed_cell in Hx.
  repeat case_decide; subst; try discriminate; by injection Hx as ->.
Qed.

(** Witnesses of the further properties on concrete games. *)


Lemma make_move_unit_count_witness :
  rps_move (loop_state 7) red_attack = Done (mkGame 8 Blue None loop_field, inl (Some Draw)) /\
  forall p, units_of p (field (mkGame 8 Blue None loop_field)) = units_of p (field (loop_state 7)).
Proof.
  split; [vm_compute; reflexivity|].
  apply (make_move_unit_count only_forward move_apply eliminate
           (loop_state 7) red_attack (mkGame 8 Blue None loop_field) (Some Draw)).
  vm_compute. reflexivity.
Defined.

Lemma reachable_turn_parity_witness :
  reachable_rps (loop_state 7) /\
  (1 <= turns (loop_state 7))%N /\
  (current_turn (loop_state 7) = Red <-> N.odd (turns (loop_state 7)) = true).
Proof.
  split; [exact loop_state_7|].
  apply (reachable_turn_parity only_forward move_apply eliminate (loop_state 7)).
  exact loop_state_7.
Defined.

Lemma reachable_unit_bound_witness :
  reachable_rps (loop_state 7) /\
  units_of Blue (field (loop_state 7)) <= WIDTH * ROWS.
Proof.
  split; [exact loop_state_7|].
  apply (reachable_unit_bound only_forward move_apply eliminate (loop_state 7) Blue).
  exact loop_state_7.
Defined.

Lemma move_onto_itself_witness :
  get_cell (field (new all_rock)) 0 0 = Done (Some (unit Red Rock)) /\
  make_move (fun _ => true) (fun m _ => from m) eliminate
    (new all_rock) (mkMove (0, 0) Forward) = Done (new all_rock, inr SameOwner).
Proof.
  split; [vm_compute; reflexivity|].
  apply (move_onto_itself (fun _ => true) (fun m _ => from m) eliminate
           (new all_rock) (mkMove (0, 0) Forward) 0 0 (unit Red Rock));
    [reflexivity | reflexivity | reflexivity | vm_compute; lia | vm_compute; lia
    | vm_compute; reflexivity | reflexivity | reflexivity].
Defined.
